(** * Condition expressions of [kubectl wait] (pkg/cmd/wait/waiter.go)

    A shallow embedding of [waiterFor], [newJSONPathParser] and
    [processJSONPathInput], with the Go string primitives they call
    ([strings.ToLower], [strings.HasPrefix], [strings.Index],
    [strings.Split], [strings.Trim] and string slicing) written out over
    byte strings. The [%q] verb of [fmt.Errorf] ([strconv.Quote]) and the
    client-go jsonpath parser are parameters of the model. *)

From Stdlib Require Import String Ascii List Bool Arith Lia.
Import ListNotations.
Open Scope string_scope.

(** ** Go values *)

(** A Go [error] built by [errors.New] or [fmt.Errorf] carries nothing but
    its message: two such errors are told apart by their text. *)
Definition error := string.

(** The [(T, error)] pair of a Go function: either a value and a nil error,
    or a non-nil error. *)
Inductive Result (A : Type) : Type :=
| Ok : A -> Result A
| Err : error -> Result A.
Arguments Ok {A} _.
Arguments Err {A} _.

Definition char_dquote : ascii := "034"%char.
Definition char_squote : ascii := "039"%char.
Definition char_backslash : ascii := "092"%char.
Definition char_eq : ascii := "061"%char.

(** ** The Go string primitives *)

Module GoStrings.

(** [unicode.ToLower] on one byte. The ASCII upper-case letters are mapped
    to lower case; other bytes are left as they are (no character outside
    ASCII lower-cases to one of the letters of [delete]). *)
Definition lower_byte (c : ascii) : ascii :=
  let n := nat_of_ascii c in
  if (65 <=? n)%nat && (n <=? 90)%nat then ascii_of_nat (n + 32)%nat else c.

(** [strings.ToLower] *)
Fixpoint ToLower (s : string) : string :=
  match s with
  | EmptyString => EmptyString
  | String c r => String (lower_byte c) (ToLower r)
  end.

(** [strings.HasPrefix(s, prefix)] *)
Fixpoint HasPrefix (s prefix : string) {struct prefix} : bool :=
  match prefix, s with
  | EmptyString, _ => true
  | String p pr, String c r => Ascii.eqb p c && HasPrefix r pr
  | String _ _, EmptyString => false
  end.

(** [strings.Index(s, sep)] for a one-byte [sep]; [None] is Go's [-1]. *)
Fixpoint Index (s : string) (sep : ascii) : option nat :=
  match s with
  | EmptyString => None
  | String c r =>
      if Ascii.eqb c sep then Some 0
      else option_map S (Index r sep)
  end.

(** [s[n:]], for [n <= len(s)] (the only way it is used below). *)
Fixpoint SliceFrom (n : nat) (s : string) : string :=
  match n, s with
  | O, _ => s
  | S n', String _ r => SliceFrom n' r
  | S _, EmptyString => EmptyString
  end.

(** [s[0:n]], for [n <= len(s)]. *)
Fixpoint SliceTo (n : nat) (s : string) : string :=
  match n, s with
  | O, _ => EmptyString
  | S n', String c r => String c (SliceTo n' r)
  | S _, EmptyString => EmptyString
  end.

(** [strings.Split(s, sep)] for a one-byte [sep]: the fields between the
    occurrences of [sep]; [Split("", sep)] is [[""]]. *)
Fixpoint Split (s : string) (sep : ascii) : list string :=
  match s with
  | EmptyString => [EmptyString]
  | String c r =>
      if Ascii.eqb c sep then EmptyString :: Split r sep
      else match Split r sep with
           | f :: fs => String c f :: fs
           | [] => [String c EmptyString]
           end
  end.

(** Membership of a byte in a cutset given as a string of ASCII bytes. *)
Fixpoint InCutset (cutset : string) (c : ascii) : bool :=
  match cutset with
  | EmptyString => false
  | String d r => Ascii.eqb c d || InCutset r c
  end.

(** [strings.TrimLeft(s, cutset)] *)
Fixpoint TrimLeft (s cutset : string) : string :=
  match s with
  | EmptyString => EmptyString
  | String c r => if InCutset cutset c then TrimLeft r cutset else s
  end.

Fixpoint rev_string (s : string) : string :=
  match s with
  | EmptyString => EmptyString
  | String c r => rev_string r ++ String c EmptyString
  end.

(** [strings.TrimRight(s, cutset)]: the left trim of the reversed string,
    reversed back. *)
Definition TrimRight (s cutset : string) : string :=
  rev_string (TrimLeft (rev_string s) cutset).

(** [strings.Trim(s, cutset)]: every leading and every trailing byte that
    belongs to [cutset] is removed. *)
Definition Trim (s cutset : string) : string :=
  TrimRight (TrimLeft s cutset) cutset.

Definition lowerhex : string := "0123456789abcdef".

Definition hex_digit (n : nat) : ascii :=
  match get n lowerhex with Some c => c | None => "0"%char end.

(** One ASCII byte as [strconv.Quote] writes it. The quote and the
    backslash are escaped, printable ASCII is kept, the seven control bytes
    with a short escape get it and the other control bytes (and DEL) become
    [\xhh]. A byte above 0x7f is written [\xhh] too, which is what Go does
    for a byte outside a valid UTF-8 sequence only: Go's rendering of such
    bytes depends on UTF-8 decoding and on Unicode's table of printable
    characters, which this definition does not model. *)
Definition quote_byte (c : ascii) : string :=
  let n := nat_of_ascii c in
  let esc (d : ascii) := String char_backslash (String d EmptyString) in
  if Ascii.eqb c char_dquote then esc char_dquote
  else if Ascii.eqb c char_backslash then esc char_backslash
  else if (32 <=? n)%nat && (n <=? 126)%nat then String c EmptyString
  else match n with
       | 7%nat => esc "a"%char
       | 8%nat => esc "b"%char
       | 12%nat => esc "f"%char
       | 10%nat => esc "n"%char
       | 13%nat => esc "r"%char
       | 9%nat => esc "t"%char
       | 11%nat => esc "v"%char
       | _ => String char_backslash (String "x"%char
                (String (hex_digit (n / 16)%nat) (String (hex_digit (n mod 16)%nat) EmptyString)))
       end.

Fixpoint quote_bytes (s : string) : string :=
  match s with
  | EmptyString => EmptyString
  | String c r => quote_byte c ++ quote_bytes r
  end.

(** Every byte of [s] is ASCII (below 0x80). *)
Fixpoint IsASCII (s : string) : bool :=
  match s with
  | EmptyString => true
  | String c r => (nat_of_ascii c <? 128)%nat && IsASCII r
  end.

(** [strconv.Quote] on an ASCII string, the text [fmt] prints for the verb
    [%q] of such a string. It is used to run the model on ASCII inputs;
    [waiterFor] takes [strconv.Quote] itself as a parameter. *)
Definition QuoteASCII (s : string) : string :=
  String char_dquote (quote_bytes s ++ String char_dquote EmptyString).

End GoStrings.
Import GoStrings.

(** ** The path relaxer of the [get] package *)

Module Relax.

Fixpoint no_braces (s : string) : bool :=
  match s with
  | EmptyString => true
  | String c r => negb (Ascii.eqb c "{"%char || Ascii.eqb c "}"%char) && no_braces r
  end.

(** The field of a shorthand path: an optional leading dot, then a
    non-empty run of bytes with no brace. *)
Definition field_of (s : string) : option string :=
  match s with
  | String "."%char r =>
      if negb (String.eqb r EmptyString) && no_braces r then Some r
      else if no_braces s then Some s else None
  | EmptyString => None
  | _ => if no_braces s then Some s else None
  end.

(** The inside of a bracketed path [{...}]. *)
Definition unbracket (s : string) : option string :=
  match s with
  | String "{"%char r =>
      match rev_string r with
      | String "}"%char m => Some (rev_string m)
      | _ => None
      end
  | _ => None
  end.

Definition relax_error : error :=
  "unexpected path string, expected a 'name1.name2' or '.name1.name2' or '{name1.name2}' or '{.name1.name2}'".

(** Modelled from the spec: [get.RelaxedJSONPathExpression] of the
    repository's [pkg/cmd/get] package, the relaxation step of the
    Path-Selector Compiler (spec 4.1, 4.2 and 6). It accepts both the
    bracketed notation [{.a.b}] or [{a.b}] and the shorthand notation
    [.a.b] or [a.b], rewrites each to the canonical form [{.a.b}], and
    fails with a syntax error on any other non-empty path. The empty path
    is passed through unchanged, so that the compiler's own emptiness check
    (spec 4.1) is the one that reports it. *)
Definition RelaxedJSONPathExpression (pathExpression : string) : Result string :=
  if String.eqb pathExpression EmptyString then Ok pathExpression
  else
    let fieldSpec :=
      match unbracket pathExpression with
      | Some inner => field_of inner
      | None => field_of pathExpression
      end in
    match fieldSpec with
    | Some f => Ok ("{." ++ f ++ "}")
    | None => Err relax_error
    end.

End Relax.

(** ** waiter.go *)

(** Modelled from the spec: the [errMatchFunc] predicates a waiter hands to
    the resource finder (spec 3 and 4.4); the deletion waiter is the only one
    to carry one, which ignores not-found errors. *)
Inductive ErrMatchFunc : Type :=
| IsNotFound.

(** A [*jsonpath.JSONPath] of client-go: its name and, once [Parse] has
    succeeded, the expression it was parsed from. *)
Record JSONPath : Type := mkJSONPath {
  jp_name : string;
  jp_parsed : option string
}.

(** [jsonpath.New(name)] *)
Definition New (name : string) : JSONPath := mkJSONPath name None.

Definition msg_malformed : error :=
  "jsonpath wait format must be --for=jsonpath='{.status.readyReplicas}'=3".
Definition msg_empty_expression : error := "jsonpath expression cannot be empty".
Definition msg_empty_condition : error := "jsonpath wait condition cannot be empty".
Definition msg_unrecognized_prefix : string := "unrecognized condition: ".

(** The cutset of [processJSONPathInput]: a single and a double quote. *)
Definition quote_cutset : string := String char_squote (String char_dquote EmptyString).

Section Waiters.

(** The [io.Writer] a waiter reports to. *)
Variable Writer : Type.

(** the [Parse] method of [jsonpath.JSONPath] of client-go, an external library:
    [None] when the expression parses (a nil error), [Some err] otherwise. *)
Variable Parse : string -> option error.

(** [strconv.Quote] of Go's standard library, the text [fmt.Errorf] prints
    for the verb [%q] of a string. *)
Variable Quote : string -> string.

(** The [ConditionFunc] of a [Waiter], one per kind of condition, with the
    values its closure captures. *)
Inductive ConditionFunc : Type :=
| IsDeleted
| ConditionalWait (conditionName conditionValue : string) (errOut : Writer)
| JSONPathWait (jsonPathCond : string) (j : JSONPath) (errOut : Writer).

Record Waiter : Type := mkWaiter {
  ConditionFn : ConditionFunc;
  IgnoreErrorFns : list ErrMatchFunc
}.

(** Modelled from the spec: [NewDeletionWaiter] (spec 4.4), a waiter that
    is done once the resource is gone and ignores not-found errors. *)
Definition NewDeletionWaiter : Waiter := mkWaiter IsDeleted [IsNotFound].

(** Modelled from the spec: [NewConditionalWaiter] (spec 4.4). *)
Definition NewConditionalWaiter (name value : string) (errOut : Writer) : Waiter :=
  mkWaiter (ConditionalWait name value errOut) [].

(** Modelled from the spec: [NewJSONPathWaiter] (spec 4.4). *)
Definition NewJSONPathWaiter (cond : string) (j : JSONPath) (errOut : Writer) : Waiter :=
  mkWaiter (JSONPathWait cond j errOut) [].

(** [newJSONPathParser] *)
Definition newJSONPathParser (jsonPathExpression : string) : Result JSONPath :=
  let j := New "wait" in
  if String.eqb jsonPathExpression EmptyString then Err msg_empty_expression
  else match Parse jsonPathExpression with
       | Some err => Err err
       | None => Ok (mkJSONPath (jp_name j) (Some jsonPathExpression))
       end.

(** [processJSONPathInput] *)
Definition processJSONPathInput (jsonPathExpression jsonPathCond : string)
  : Result (string * string) :=
  match Relax.RelaxedJSONPathExpression jsonPathExpression with
  | Err err => Err err
  | Ok relaxedJSONPathExp =>
      if String.eqb jsonPathCond EmptyString then Err msg_empty_condition
      else
        let jsonPathCond := Trim jsonPathCond quote_cutset in
        Ok (relaxedJSONPathExp, jsonPathCond)
  end.

(** [waiterFor] *)
Definition waiterFor (condition : string) (errOut : Writer) : Result Waiter :=
  if String.eqb (ToLower condition) "delete" then Ok NewDeletionWaiter
  else if HasPrefix condition "condition=" then
    let conditionName := SliceFrom (String.length "condition=") condition in
    match Index conditionName char_eq with
    | Some equalsIndex =>
        let conditionValue := SliceFrom (S equalsIndex) conditionName in
        let conditionName := SliceTo equalsIndex conditionName in
        Ok (NewConditionalWaiter conditionName conditionValue errOut)
    | None => Ok (NewConditionalWaiter conditionName "true" errOut)
    end
  else if HasPrefix condition "jsonpath=" then
    let splitStr := Split condition char_eq in
    if negb (List.length splitStr =? 3)%nat then Err msg_malformed
    else
      match processJSONPathInput (nth 1 splitStr EmptyString) (nth 2 splitStr EmptyString) with
      | Err err => Err err
      | Ok (jsonPathExp, jsonPathCond) =>
          match newJSONPathParser jsonPathExp with
          | Err err => Err err
          | Ok j => Ok (NewJSONPathWaiter jsonPathCond j errOut)
          end
      end
  else Err (msg_unrecognized_prefix ++ Quote condition).

End Waiters.

Arguments IsDeleted {Writer}.
Arguments ConditionalWait {Writer} _ _ _.
Arguments JSONPathWait {Writer} _ _ _.
Arguments mkWaiter {Writer} _ _.
Arguments ConditionFn {Writer} _.
Arguments IgnoreErrorFns {Writer} _.
Arguments NewDeletionWaiter {Writer}.
Arguments NewConditionalWaiter {Writer} _ _ _.
Arguments NewJSONPathWaiter {Writer} _ _ _.
Arguments newJSONPathParser _ _ : clear implicits.
Arguments processJSONPathInput _ _ : clear implicits.
Arguments waiterFor {Writer} _ _ _ _.

(** A parser that accepts every expression, to run the model on examples. *)
Definition parse_all (_ : string) : option error := None.

(** ** Vocabulary of the properties *)

(** [strings.Contains(s, sub)] *)
Fixpoint Contains (s sub : string) : bool :=
  HasPrefix s sub ||
  match s with
  | EmptyString => false
  | String _ r => Contains r sub
  end.

(** [strings.Count(s, sep)] for a one-byte [sep]. *)
Fixpoint Count (s : string) (sep : ascii) : nat :=
  match s with
  | EmptyString => 0
  | String c r => (if Ascii.eqb c sep then 1 else 0) + Count r sep
  end.

(** Every byte of [s] is in [cutset]. *)
Fixpoint AllIn (cutset s : string) : bool :=
  match s with
  | EmptyString => true
  | String c r => InCutset cutset c && AllIn cutset r
  end.

(** [s] does not start with a byte of [cutset]. *)
Definition StartsOutside (cutset s : string) : bool :=
  match s with
  | EmptyString => true
  | String c _ => negb (InCutset cutset c)
  end.

(** [s] does not end with a byte of [cutset]. *)
Definition EndsOutside (cutset s : string) : bool :=
  StartsOutside cutset (rev_string s).

(** A byte that [strconv.Quote] writes as itself: printable ASCII other
    than the double quote and the backslash. *)
Definition plain_byte (c : ascii) : bool :=
  let n := nat_of_ascii c in
  (32 <=? n)%nat && (n <=? 126)%nat
  && negb (Ascii.eqb c char_dquote) && negb (Ascii.eqb c char_backslash).

Fixpoint Plain (s : string) : bool :=
  match s with
  | EmptyString => true
  | String c r => plain_byte c && Plain r
  end.

(** ** General lemmas *)

Module Facts.

Lemma str_app_nil_r (s : string) : s ++ EmptyString = s.
Proof. induction s as [|c s IH]; simpl; [reflexivity | now rewrite IH]. Qed.

Lemma str_app_assoc (a b c : string) : (a ++ b) ++ c = a ++ (b ++ c).
Proof. induction a as [|x a IH]; simpl; [reflexivity | now rewrite IH]. Qed.

Lemma rev_string_app (a b : string) :
  rev_string (a ++ b) = rev_string b ++ rev_string a.
Proof.
  induction a as [|c a IH]; simpl.
  - now rewrite str_app_nil_r.
  - now rewrite IH, str_app_assoc.
Qed.

Lemma rev_string_involutive (s : string) : rev_string (rev_string s) = s.
Proof.
  induction s as [|c s IH]; simpl; [reflexivity|].
  now rewrite rev_string_app, IH.
Qed.

Lemma AllIn_app (cs a b : string) : AllIn cs (a ++ b) = AllIn cs a && AllIn cs b.
Proof.
  induction a as [|c a IH]; simpl; [reflexivity|].
  now rewrite IH, andb_assoc.
Qed.

Lemma AllIn_rev (cs s : string) : AllIn cs (rev_string s) = AllIn cs s.
Proof.
  induction s as [|c s IH]; simpl; [reflexivity|].
  rewrite AllIn_app, IH; simpl.
  now rewrite andb_true_r, andb_comm.
Qed.

Lemma TrimLeft_app_all (cs pre s : string) :
  AllIn cs pre = true -> TrimLeft (pre ++ s) cs = TrimLeft s cs.
Proof.
  induction pre as [|c pre IH]; simpl; [reflexivity|].
  intros H; apply andb_true_iff in H as [Hc Hpre].
  rewrite Hc; auto.
Qed.

Lemma TrimLeft_all (cs s : string) : AllIn cs s = true -> TrimLeft s cs = EmptyString.
Proof.
  intros H; rewrite <- (str_app_nil_r s), (TrimLeft_app_all cs s EmptyString H).
  reflexivity.
Qed.

Lemma TrimLeft_outside (cs s : string) : StartsOutside cs s = true -> TrimLeft s cs = s.
Proof.
  destruct s as [|c r]; simpl; [reflexivity|].
  intros H; apply negb_true_iff in H; now rewrite H.
Qed.

(** [strings.Trim] removes exactly the run of cutset bytes on each side. *)
Lemma Trim_frame (cs pre mid post : string) :
  AllIn cs pre = true -> AllIn cs post = true ->
  StartsOutside cs mid = true -> EndsOutside cs mid = true ->
  Trim (pre ++ mid ++ post) cs = mid.
Proof.
  intros Hpre Hpost Hs He; unfold Trim, TrimRight.
  rewrite (TrimLeft_app_all cs pre _ Hpre).
  destruct mid as [|c m].
  - simpl; now rewrite (TrimLeft_all cs post Hpost).
  - rewrite (TrimLeft_outside cs (String c m ++ post)) by exact Hs.
    rewrite rev_string_app, TrimLeft_app_all by now rewrite AllIn_rev.
    rewrite TrimLeft_outside by exact He.
    apply rev_string_involutive.
Qed.

Lemma HasPrefix_app (s b : string) : HasPrefix (s ++ b) s = true.
Proof.
  induction s as [|c s IH]; simpl; [reflexivity|].
  now rewrite Ascii.eqb_refl, IH.
Qed.

Lemma Contains_app (a s b : string) : Contains (a ++ s ++ b) s = true.
Proof.
  induction a as [|c a IH]; simpl.
  - destruct s; simpl; [now destruct b|].
    now rewrite Ascii.eqb_refl, HasPrefix_app.
  - now rewrite IH, orb_true_r.
Qed.

Lemma quote_bytes_plain (s : string) : Plain s = true -> quote_bytes s = s.
Proof.
  induction s as [|c s IH]; simpl; [reflexivity|].
  intros H; apply andb_true_iff in H as [Hc Hs].
  rewrite (IH Hs).
  unfold plain_byte in Hc; unfold quote_byte.
  apply andb_true_iff in Hc as [Hc Hb]; apply andb_true_iff in Hc as [Hc Hq].
  apply negb_true_iff in Hb, Hq.
  now rewrite Hq, Hb, Hc.
Qed.

Lemma Plain_IsASCII (s : string) : Plain s = true -> IsASCII s = true.
Proof.
  induction s as [|c s IH]; simpl; [reflexivity|].
  intros H; apply andb_true_iff in H as [Hc Hs]; rewrite (IH Hs).
  unfold plain_byte in Hc; apply andb_true_iff in Hc as [Hc _].
  apply andb_true_iff in Hc as [Hc _]; apply andb_true_iff in Hc as [_ Hc].
  apply Nat.leb_le in Hc; apply andb_true_iff; split; [apply Nat.ltb_lt; lia | reflexivity].
Qed.

Lemma Index_none_Split (s : string) (c : ascii) :
  Index s c = None -> Split s c = [s].
Proof.
  induction s as [|d s IH]; simpl; [reflexivity|].
  destruct (Ascii.eqb d c); [discriminate|].
  destruct (Index s c); [discriminate|].
  intros _; now rewrite IH.
Qed.

Lemma Split_app_sep (a b : string) (c : ascii) :
  Index a c = None -> Split (a ++ String c b) c = a :: Split b c.
Proof.
  induction a as [|d a IH]; simpl.
  - now rewrite Ascii.eqb_refl.
  - destruct (Ascii.eqb d c); [discriminate|].
    destruct (Index a c); [discriminate|].
    intros _; now rewrite IH.
Qed.

Lemma Split_length (s : string) (c : ascii) :
  List.length (Split s c) = S (Count s c).
Proof.
  induction s as [|d s IH]; simpl; [reflexivity|].
  destruct (Ascii.eqb d c); simpl; [now rewrite IH|].
  destruct (Split s c); simpl in *; [discriminate | exact IH].
Qed.

Lemma Index_app_sep (a b : string) (c : ascii) :
  Index a c = None -> Index (a ++ String c b) c = Some (String.length a).
Proof.
  induction a as [|d a IH]; simpl.
  - now rewrite Ascii.eqb_refl.
  - destruct (Ascii.eqb d c); [discriminate|].
    destruct (Index a c); [discriminate|].
    intros _; now rewrite IH.
Qed.

Lemma SliceTo_app (a b : string) : SliceTo (String.length a) (a ++ b) = a.
Proof. induction a as [|c a IH]; simpl; [reflexivity | now rewrite IH]. Qed.

Lemma SliceFrom_app_S (a b : string) (c : ascii) :
  SliceFrom (S (String.length a)) (a ++ String c b) = b.
Proof. induction a as [|d a IH]; simpl; [reflexivity | exact IH]. Qed.

End Facts.

(** ** The branches of [waiterFor] *)

Module Branches.
Import Facts.

Lemma Relax_error_msg (p e : string) :
  Relax.RelaxedJSONPathExpression p = Err e -> e = Relax.relax_error.
Proof.
  unfold Relax.RelaxedJSONPathExpression.
  destruct (String.eqb p EmptyString); [discriminate|].
  destruct (match Relax.unbracket p with
            | Some inner => Relax.field_of inner
            | None => Relax.field_of p end); congruence.
Qed.

Lemma waiterFor_condition {W : Type} (Parse : string -> option error) (Quote : string -> string) (errOut : W)
  (rest : string) :
  waiterFor Parse Quote ("condition=" ++ rest) errOut =
  match Index rest char_eq with
  | Some i => Ok (NewConditionalWaiter (SliceTo i rest) (SliceFrom (S i) rest) errOut)
  | None => Ok (NewConditionalWaiter rest "true" errOut)
  end.
Proof. reflexivity. Qed.

Lemma waiterFor_jsonpath {W : Type} (Parse : string -> option error) (Quote : string -> string) (errOut : W)
  (r : string) :
  waiterFor Parse Quote ("jsonpath=" ++ r) errOut =
  match Split r char_eq with
  | [p; v] =>
      match processJSONPathInput p v with
      | Err err => Err err
      | Ok (jsonPathExp, jsonPathCond) =>
          match newJSONPathParser Parse jsonPathExp with
          | Err err => Err err
          | Ok j => Ok (NewJSONPathWaiter jsonPathCond j errOut)
          end
      end
  | _ => Err msg_malformed
  end.
Proof.
  unfold waiterFor; simpl.
  destruct (Split r char_eq) as [|p [|v [|x l]]]; reflexivity.
Qed.

Lemma waiterFor_other {W : Type} (Parse : string -> option error) (Quote : string -> string) (errOut : W)
  (s : string) :
  ToLower s <> "delete" -> HasPrefix s "condition=" = false ->
  HasPrefix s "jsonpath=" = false ->
  waiterFor Parse Quote s errOut = Err (msg_unrecognized_prefix ++ Quote s).
Proof.
  intros Hd Hc Hj; unfold waiterFor.
  destruct (String.eqb_spec (ToLower s) "delete"); [contradiction|].
  now rewrite Hc, Hj.
Qed.

End Branches.

(** ** The claims *)

Module Claims.
Import Facts Branches.

(** C1 (counterexample): for the doubly quoted expected value [''Running'']
    processJSONPathInput does not return ['Running']: it returns [Running],
    every quote having been removed. *)
Lemma C1_nested_quotes_all_stripped :
  processJSONPathInput "{.status.phase}" "''Running''" = Ok ("{.status.phase}", "Running")
  /\ processJSONPathInput "{.status.phase}" "''Running''" <> Ok ("{.status.phase}", "'Running'").
Proof. split; [reflexivity | intros H; vm_compute in H; congruence]. Qed.

(** C1 (amended): when the path is accepted by the relaxation step and the
    expected value is non-empty, processJSONPathInput removes every leading
    and every trailing single or double quote of the expected value, however
    many there are and whether or not they pair up, and keeps what lies
    between them unchanged. *)
Theorem C1_processJSONPathInput_trims_all_quotes
  (jsonPathExpression relaxed pre mid post : string) :
  Relax.RelaxedJSONPathExpression jsonPathExpression = Ok relaxed ->
  AllIn quote_cutset pre = true -> AllIn quote_cutset post = true ->
  StartsOutside quote_cutset mid = true -> EndsOutside quote_cutset mid = true ->
  pre ++ mid ++ post <> EmptyString ->
  processJSONPathInput jsonPathExpression (pre ++ mid ++ post) = Ok (relaxed, mid).
Proof.
  intros Hr Hpre Hpost Hs He Hne; unfold processJSONPathInput; rewrite Hr.
  destruct (String.eqb_spec (pre ++ mid ++ post) EmptyString); [contradiction|].
  now rewrite Trim_frame.
Qed.

Lemma C1_witness :
  processJSONPathInput "{.status.phase}" ("''" ++ "Running" ++ "''")
  = Ok ("{.status.phase}", "Running").
Proof.
  apply C1_processJSONPathInput_trims_all_quotes;
    [reflexivity | reflexivity | reflexivity | reflexivity | reflexivity | discriminate].
Defined.

(** C2: for every input [jsonpath=r], splitting the whole input at ['=']
    gives [2 + (number of '=' in r)] fields; waiterFor fails with the
    malformed-jsonpath error whenever [r] does not hold exactly one ['='],
    and it succeeds only when the split gives exactly three fields. *)
Theorem C2_jsonpath_arity {W : Type} (Parse : string -> option error) (Quote : string -> string) (errOut : W)
  (r : string) :
  List.length (Split ("jsonpath=" ++ r) char_eq) = 2 + Count r char_eq /\
  (Count r char_eq <> 1 -> waiterFor Parse Quote ("jsonpath=" ++ r) errOut = Err msg_malformed) /\
  (forall w, waiterFor Parse Quote ("jsonpath=" ++ r) errOut = Ok w ->
     List.length (Split ("jsonpath=" ++ r) char_eq) = 3).
Proof.
  assert (Hs : Split ("jsonpath=" ++ r) char_eq = "jsonpath" :: Split r char_eq)
    by reflexivity.
  assert (Hl := Split_length r char_eq).
  rewrite Hs; simpl List.length; rewrite Hl.
  split; [reflexivity|]; split.
  - intros Hc; rewrite waiterFor_jsonpath.
    destruct (Split r char_eq) as [|p [|v [|x l]]]; try reflexivity.
    simpl in Hl; lia.
  - intros w; rewrite waiterFor_jsonpath.
    destruct (Split r char_eq) as [|p [|v [|x l]]]; try discriminate.
    intros _; simpl in Hl; lia.
Qed.

Lemma C2_witness :
  List.length (Split "jsonpath={.status.phase}=Running" char_eq) = 3 /\
  waiterFor parse_all QuoteASCII "jsonpath={.status.phase}" tt = Err msg_malformed /\
  waiterFor parse_all QuoteASCII "jsonpath={.status.phase}=a=b" tt = Err msg_malformed.
Proof.
  split; [|split].
  - exact (proj1 (C2_jsonpath_arity parse_all QuoteASCII tt "{.status.phase}=Running")).
  - apply (proj1 (proj2 (C2_jsonpath_arity parse_all QuoteASCII tt "{.status.phase}"))).
    vm_compute; discriminate.
  - apply (proj1 (proj2 (C2_jsonpath_arity parse_all QuoteASCII tt "{.status.phase}=a=b"))).
    vm_compute; discriminate.
Defined.

(** C3: an input [condition=rest] is a named condition split at the first
    ['=']: with no ['='] in [rest] the name is [rest] and the value is
    [true]; otherwise the name is what precedes the first ['='] and the
    value is everything after it. *)
Theorem C3_condition_split {W : Type} (Parse : string -> option error) (Quote : string -> string) (errOut : W) :
  (forall rest, Index rest char_eq = None ->
     waiterFor Parse Quote ("condition=" ++ rest) errOut
     = Ok (NewConditionalWaiter rest "true" errOut)) /\
  (forall name value, Index name char_eq = None ->
     waiterFor Parse Quote ("condition=" ++ name ++ String char_eq value) errOut
     = Ok (NewConditionalWaiter name value errOut)).
Proof.
  split.
  - intros rest H; now rewrite waiterFor_condition, H.
  - intros name value H.
    rewrite waiterFor_condition, Index_app_sep by exact H.
    now rewrite SliceTo_app, SliceFrom_app_S.
Qed.

Lemma C3_witness :
  waiterFor parse_all QuoteASCII "condition=Ready=a=b" tt
    = Ok (NewConditionalWaiter "Ready" "a=b" tt) /\
  waiterFor parse_all QuoteASCII "condition=Ready" tt
    = Ok (NewConditionalWaiter "Ready" "true" tt).
Proof.
  split.
  - apply (proj2 (C3_condition_split parse_all QuoteASCII tt) "Ready" "a=b"); reflexivity.
  - apply (proj1 (C3_condition_split parse_all QuoteASCII tt) "Ready"); reflexivity.
Defined.

(** C4: waiterFor returns the deletion waiter exactly when the input
    lower-cased is [delete]; so [delete], [DELETE] and [Delete] give it and
    [deleted] fails with the unrecognized-condition error. *)
Theorem C4_deletion_iff_lower_delete {W : Type} (Parse : string -> option error) (Quote : string -> string)
  (errOut : W) :
  (forall s, waiterFor Parse Quote s errOut = Ok NewDeletionWaiter <-> ToLower s = "delete") /\
  waiterFor Parse Quote "delete" errOut = Ok NewDeletionWaiter /\
  waiterFor Parse Quote "DELETE" errOut = Ok NewDeletionWaiter /\
  waiterFor Parse Quote "Delete" errOut = Ok NewDeletionWaiter /\
  waiterFor Parse Quote "deleted" errOut = Err (msg_unrecognized_prefix ++ Quote "deleted").
Proof.
  split; [|repeat split; reflexivity].
  intros s; unfold waiterFor.
  destruct (String.eqb_spec (ToLower s) "delete") as [E|E]; [tauto|].
  split; [|intros H; contradiction]; intros H; exfalso.
  destruct (HasPrefix s "condition=").
  - destruct (Index _ char_eq); discriminate.
  - destruct (HasPrefix s "jsonpath="); [|discriminate].
    destruct (negb _); [discriminate|].
    destruct (processJSONPathInput _ _) as [[e c]|err]; [|discriminate].
    destruct (newJSONPathParser Parse e); discriminate.
Qed.

(** C5 (counterexample): for the input made of [foo], a double quote and
    [bar], which has none of the recognised forms, the error message carries
    the input quoted by [%q], with a backslash before its double quote, and
    does not contain the input verbatim. The input is ASCII, where
    [QuoteASCII] is [strconv.Quote]. *)
Lemma C5_quote_escaped_in_message :
  IsASCII ("foo" ++ String char_dquote "bar") = true /\
  waiterFor parse_all QuoteASCII ("foo" ++ String char_dquote "bar") tt
    = Err (msg_unrecognized_prefix ++ QuoteASCII ("foo" ++ String char_dquote "bar")) /\
  Contains (msg_unrecognized_prefix ++ QuoteASCII ("foo" ++ String char_dquote "bar"))
           ("foo" ++ String char_dquote "bar") = false.
Proof. split; [|split]; vm_compute; reflexivity. Qed.

(** C5 (amended): an input that does not lower-case to [delete] and starts
    with neither [condition=] nor [jsonpath=] makes waiterFor fail with the
    message [unrecognized condition: ] followed by the input quoted by
    [strconv.Quote] (the [%q] verb); when the input is printable ASCII with
    no double quote and no backslash, the message contains the input
    verbatim, for any [Quote] that writes ASCII strings as Go does. *)
Theorem C5_unrecognized_message {W : Type} (Parse : string -> option error)
  (Quote : string -> string) (errOut : W) (s : string) :
  ToLower s <> "delete" -> HasPrefix s "condition=" = false ->
  HasPrefix s "jsonpath=" = false ->
  waiterFor Parse Quote s errOut = Err (msg_unrecognized_prefix ++ Quote s) /\
  ((forall t, IsASCII t = true -> Quote t = QuoteASCII t) ->
   Plain s = true -> Contains (msg_unrecognized_prefix ++ Quote s) s = true).
Proof.
  intros Hd Hc Hj; split; [now apply waiterFor_other|].
  intros HQ Hp; rewrite HQ by now apply Plain_IsASCII.
  unfold QuoteASCII; rewrite quote_bytes_plain by exact Hp.
  change (String char_dquote (s ++ String char_dquote EmptyString))
    with (String char_dquote EmptyString ++ s ++ String char_dquote EmptyString).
  rewrite <- str_app_assoc.
  apply Contains_app.
Qed.

Lemma C5_witness :
  waiterFor parse_all QuoteASCII "foo=bar" tt
    = Err (msg_unrecognized_prefix ++ QuoteASCII "foo=bar") /\
  Contains (msg_unrecognized_prefix ++ QuoteASCII "foo=bar") "foo=bar" = true.
Proof.
  destruct (C5_unrecognized_message parse_all QuoteASCII tt "foo=bar")
    as [H1 H2]; [discriminate | reflexivity | reflexivity |].
  split; [exact H1 | apply H2; reflexivity].
Defined.

(** C6 (counterexample): the input [jsonpath==] has an empty path
    expression, yet waiterFor fails with the empty-condition error, not with
    the empty-expression error. *)
Lemma C6_empty_path_and_value :
  waiterFor parse_all QuoteASCII "jsonpath==" tt = Err msg_empty_condition /\
  msg_empty_condition <> msg_empty_expression.
Proof. split; [reflexivity | discriminate]. Qed.

(** C6 (amended): when the path expression is empty and the expected value
    is non-empty with no further ['='] (as in [jsonpath==x]), waiterFor fails
    with the dedicated empty-expression error whatever the jsonpath parser
    would answer: the parser is not consulted. *)
Theorem C6_empty_path_expression {W : Type} (Parse : string -> option error) (Quote : string -> string)
  (errOut : W) (v : string) :
  v <> EmptyString -> Index v char_eq = None ->
  waiterFor Parse Quote ("jsonpath==" ++ v) errOut = Err msg_empty_expression.
Proof.
  intros Hne Hi.
  change ("jsonpath==" ++ v) with ("jsonpath=" ++ String char_eq v).
  rewrite waiterFor_jsonpath.
  change (Split (String char_eq v) char_eq) with (EmptyString :: Split v char_eq).
  rewrite Index_none_Split by exact Hi.
  unfold processJSONPathInput; simpl Relax.RelaxedJSONPathExpression; cbv iota.
  destruct (String.eqb_spec v EmptyString); [contradiction|].
  reflexivity.
Qed.

Lemma C6_witness :
  waiterFor parse_all QuoteASCII "jsonpath==x" tt = Err msg_empty_expression.
Proof. apply C6_empty_path_expression; [discriminate | reflexivity]. Defined.

(** C7 (counterexample): with an empty expected value and a path the
    relaxation step rejects, processJSONPathInput fails with the relaxation
    error, not with the empty-condition error. *)
Lemma C7_relax_error_first :
  processJSONPathInput "{a" EmptyString = Err Relax.relax_error /\
  Relax.relax_error <> msg_empty_condition.
Proof. split; [reflexivity | discriminate]. Qed.

(** C7 (amended): processJSONPathInput fails with the empty-condition error
    only when the expected value is empty, and, for a path the relaxation
    step accepts, always does so then; that error's message differs from the
    empty-expression error's message, which is what tells the two plain Go
    errors apart. *)
Theorem C7_empty_condition_error (jsonPathExpression jsonPathCond : string) :
  (processJSONPathInput jsonPathExpression jsonPathCond = Err msg_empty_condition ->
   jsonPathCond = EmptyString) /\
  (forall relaxed, Relax.RelaxedJSONPathExpression jsonPathExpression = Ok relaxed ->
   jsonPathCond = EmptyString ->
   processJSONPathInput jsonPathExpression jsonPathCond = Err msg_empty_condition) /\
  msg_empty_condition <> msg_empty_expression.
Proof.
  unfold processJSONPathInput; split; [|split; [|discriminate]].
  - destruct (Relax.RelaxedJSONPathExpression jsonPathExpression) as [relaxed|e] eqn:Hr.
    + destruct (String.eqb_spec jsonPathCond EmptyString); [easy | discriminate].
    + intros H; apply Relax_error_msg in Hr; injection H as ->.
      discriminate Hr.
  - intros relaxed Hr ->; now rewrite Hr.
Qed.

Lemma C7_witness :
  processJSONPathInput "{.status.phase}" EmptyString = Err msg_empty_condition.
Proof.
  apply (proj1 (proj2 (C7_empty_condition_error "{.status.phase}" EmptyString))
           "{.status.phase}"); reflexivity.
Defined.

(** C8: waiterFor depends on nothing but its arguments and the answers of
    the jsonpath parser: with two parsers that answer alike, every input
    gives the same result, error or waiter. *)
Theorem C8_waiterFor_deterministic {W : Type} (Parse1 Parse2 : string -> option error) (Quote : string -> string) :
  (forall e, Parse1 e = Parse2 e) ->
  forall (s : string) (errOut : W), waiterFor Parse1 Quote s errOut = waiterFor Parse2 Quote s errOut.
Proof.
  intros HP s errOut; unfold waiterFor.
  destruct (String.eqb (ToLower s) "delete"); [reflexivity|].
  destruct (HasPrefix s "condition="); [reflexivity|].
  destruct (HasPrefix s "jsonpath="); [|reflexivity].
  destruct (negb _); [reflexivity|].
  destruct (processJSONPathInput _ _) as [[e c]|err]; [|reflexivity].
  unfold newJSONPathParser; now rewrite HP.
Qed.

Lemma C8_witness :
  waiterFor parse_all QuoteASCII "jsonpath={.status.phase}=Running" tt
  = waiterFor parse_all QuoteASCII "jsonpath={.status.phase}=Running" tt.
Proof. apply C8_waiterFor_deterministic; reflexivity. Defined.

(** C9 (counterexample): the empty path is accepted by the relaxation step,
    yet [jsonpath==''] fails, with the empty-expression error. *)
Lemma C9_empty_path_quoted_empty_value :
  Relax.RelaxedJSONPathExpression EmptyString = Ok EmptyString /\
  waiterFor parse_all QuoteASCII "jsonpath==''" tt = Err msg_empty_expression.
Proof. split; reflexivity. Qed.

(** C9 (amended): the quoted empty value [''] passes the emptiness check and
    is trimmed to the empty string; for a path [P] with no ['='] that the
    relaxation step accepts, whose relaxed form is non-empty and is accepted
    by the jsonpath parser, [jsonpath=P=''] succeeds with the empty string as
    the expected value. *)
Theorem C9_quoted_empty_value {W : Type} (Parse : string -> option error) (Quote : string -> string) (errOut : W)
  (P relaxed : string) :
  Index P char_eq = None -> Relax.RelaxedJSONPathExpression P = Ok relaxed ->
  relaxed <> EmptyString -> Parse relaxed = None ->
  processJSONPathInput P "''" = Ok (relaxed, EmptyString) /\
  waiterFor Parse Quote ("jsonpath=" ++ P ++ String char_eq "''") errOut
  = Ok (NewJSONPathWaiter EmptyString (mkJSONPath "wait" (Some relaxed)) errOut).
Proof.
  intros Hi Hr Hne Hp.
  assert (Hproc : processJSONPathInput P "''" = Ok (relaxed, EmptyString))
    by (unfold processJSONPathInput; now rewrite Hr).
  split; [exact Hproc|].
  rewrite waiterFor_jsonpath, Split_app_sep by exact Hi.
  change (Split "''" char_eq) with ["''"]; cbv iota.
  rewrite Hproc; unfold newJSONPathParser.
  destruct (String.eqb_spec relaxed EmptyString); [contradiction|].
  now rewrite Hp.
Qed.

Lemma C9_witness :
  waiterFor parse_all QuoteASCII "jsonpath={.status.phase}=''" tt
  = Ok (NewJSONPathWaiter EmptyString (mkJSONPath "wait" (Some "{.status.phase}")) tt).
Proof.
  apply (C9_quoted_empty_value parse_all QuoteASCII tt "{.status.phase}" "{.status.phase}");
    [reflexivity | reflexivity | discriminate | reflexivity].
Defined.

(** C10: every input [condition=rest] gives a conditional waiter and no
    error, whatever [rest] is; the bare [condition=] gives the empty name
    and the value [true]. *)
Theorem C10_condition_never_fails {W : Type} (Parse : string -> option error) (Quote : string -> string)
  (errOut : W) (rest : string) :
  (exists name value,
     waiterFor Parse Quote ("condition=" ++ rest) errOut = Ok (NewConditionalWaiter name value errOut)) /\
  waiterFor Parse Quote "condition=" errOut = Ok (NewConditionalWaiter EmptyString "true" errOut).
Proof.
  split; [|reflexivity].
  rewrite waiterFor_condition.
  destruct (Index rest char_eq); eauto.
Qed.

End Claims.

(** ** Further properties of waiter.go *)

Module Inversion.
Import Facts Branches.

Lemma str_length_app (a b : string) :
  String.length (a ++ b) = String.length a + String.length b.
Proof. induction a as [|c a IH]; simpl; [reflexivity | now rewrite IH]. Qed.

Lemma ToLower_length (s : string) : String.length (ToLower s) = String.length s.
Proof. induction s as [|c s IH]; simpl; [reflexivity | now rewrite IH]. Qed.

Lemma HasPrefix_inv (s p : string) :
  HasPrefix s p = true -> s = p ++ SliceFrom (String.length p) s.
Proof.
  revert s; induction p as [|c p IH]; intros s; simpl; [reflexivity|].
  destruct s as [|d s]; [discriminate|].
  intros H; apply andb_true_iff in H as [Hc Hs].
  apply Ascii.eqb_eq in Hc; subst d; now rewrite <- (IH s Hs).
Qed.

Lemma HasPrefix_same_length (p q r : string) :
  String.length p = String.length q -> HasPrefix (p ++ r) q = true -> p = q.
Proof.
  revert q; induction p as [|c p IH]; intros q Hl H; destruct q as [|d q];
    try discriminate; [reflexivity|].
  simpl in H; apply andb_true_iff in H as [Hc Hs].
  apply Ascii.eqb_eq in Hc; subst d.
  injection Hl as Hl; now rewrite (IH q Hl Hs).
Qed.

Lemma Split_not_nil (s : string) (c : ascii) : Split s c <> [].
Proof. intros H; pose proof (Split_length s c) as L; rewrite H in L; discriminate. Qed.

Lemma Split_single (s v : string) (c : ascii) :
  Split s c = [v] -> s = v /\ Index s c = None.
Proof.
  revert v; induction s as [|d s IH]; intros v; simpl.
  - now intros [= <-].
  - destruct (Ascii.eqb d c) eqn:Hd.
    + intros [= _ H]; now apply Split_not_nil in H.
    + destruct (Split s c) as [|f fs] eqn:Hs; [now apply Split_not_nil in Hs|].
      intros [= <- ->]; destruct (IH f eq_refl) as [-> Hi].
      now rewrite Hi.
Qed.

Lemma Split_pair (s p v : string) (c : ascii) :
  Split s c = [p; v] ->
  s = p ++ String c v /\ Index p c = None /\ Index v c = None.
Proof.
  revert p; induction s as [|d s IH]; intros p; simpl; [discriminate|].
  destruct (Ascii.eqb d c) eqn:Hd.
  - intros [= <- Hs]; apply Split_single in Hs as [-> Hv].
    apply Ascii.eqb_eq in Hd; subst d; auto.
  - destruct (Split s c) as [|f fs] eqn:Hs; [now apply Split_not_nil in Hs|].
    intros [= <- ->]; destruct (IH f eq_refl) as (-> & Hf & Hv).
    simpl; now rewrite Hd, Hf.
Qed.

Lemma Index_some_inv (s : string) (c : ascii) (i : nat) :
  Index s c = Some i ->
  s = SliceTo i s ++ String c (SliceFrom (S i) s) /\ Index (SliceTo i s) c = None.
Proof.
  revert i; induction s as [|d s IH]; intros i; simpl; [discriminate|].
  destruct (Ascii.eqb d c) eqn:Hd.
  - intros [= <-]; apply Ascii.eqb_eq in Hd; subst d; auto.
  - destruct (Index s c) as [j|] eqn:Hj; [|discriminate].
    intros [= <-]; destruct (IH j eq_refl) as [E Hn].
    simpl; rewrite Hd, Hn; split; [|reflexivity].
    now rewrite E at 1.
Qed.

Lemma processJSONPathInput_ok (p v e c : string) :
  processJSONPathInput p v = Ok (e, c) ->
  Relax.RelaxedJSONPathExpression p = Ok e /\ v <> EmptyString /\
  c = Trim v quote_cutset.
Proof.
  unfold processJSONPathInput.
  destruct (Relax.RelaxedJSONPathExpression p); [|discriminate].
  destruct (String.eqb_spec v EmptyString); [discriminate|].
  intros [= -> <-]; auto.
Qed.

Lemma newJSONPathParser_ok (Parse : string -> option error) (e : string) (j : JSONPath) :
  newJSONPathParser Parse e = Ok j ->
  e <> EmptyString /\ Parse e = None /\ j = mkJSONPath "wait" (Some e).
Proof.
  unfold newJSONPathParser.
  destruct (String.eqb_spec e EmptyString); [discriminate|].
  destruct (Parse e); [discriminate|].
  intros [= <-]; auto.
Qed.

(** The three ways [waiterFor] can succeed. *)
Lemma waiterFor_ok_cases {W : Type} (Parse : string -> option error) (Quote : string -> string) (errOut : W)
  (s : string) (w : Waiter W) :
  waiterFor Parse Quote s errOut = Ok w ->
  (ToLower s = "delete" /\ w = NewDeletionWaiter) \/
  (exists rest, s = "condition=" ++ rest /\
     w = match Index rest char_eq with
         | Some i => NewConditionalWaiter (SliceTo i rest) (SliceFrom (S i) rest) errOut
         | None => NewConditionalWaiter rest "true" errOut
         end) \/
  (exists p v e c j, s = "jsonpath=" ++ p ++ String char_eq v /\
     Index p char_eq = None /\ Index v char_eq = None /\
     processJSONPathInput p v = Ok (e, c) /\ newJSONPathParser Parse e = Ok j /\
     w = NewJSONPathWaiter c j errOut).
Proof.
  intros H0; pose proof H0 as H; unfold waiterFor in H.
  destruct (String.eqb_spec (ToLower s) "delete") as [E|E].
  - injection H as <-; left; auto.
  - destruct (HasPrefix s "condition=") eqn:Hc.
    + apply HasPrefix_inv in Hc; simpl String.length in Hc.
      cbv zeta in H; change (String.length "condition=") with 10 in H.
      right; left; exists (SliceFrom 10 s); split; [exact Hc|].
      destruct (Index (SliceFrom 10 s) char_eq); now injection H.
    + destruct (HasPrefix s "jsonpath=") eqn:Hj; [|discriminate].
      apply HasPrefix_inv in Hj; simpl String.length in Hj.
      rewrite Hj, waiterFor_jsonpath in H0; clear H.
      destruct (Split (SliceFrom 9 s) char_eq) as [|p [|v [|x l]]] eqn:Hs;
        try discriminate.
      apply Split_pair in Hs as (Hr & Hp & Hv).
      destruct (processJSONPathInput p v) as [[e c]|err] eqn:Hpi; [|discriminate].
      destruct (newJSONPathParser Parse e) as [j|err] eqn:Hn; [|discriminate].
      injection H0 as <-; right; right.
      exists p, v, e, c, j; rewrite Hj, Hr; auto 7.
Qed.

End Inversion.

Module TrimFacts.
Import Facts.

Lemma TrimLeft_app_split (cs x y : string) :
  TrimLeft (x ++ y) cs = if AllIn cs x then TrimLeft y cs else TrimLeft x cs ++ y.
Proof.
  induction x as [|d x IH]; simpl; [reflexivity|].
  destruct (InCutset cs d); simpl; [exact IH | reflexivity].
Qed.

Lemma StartsOutside_TrimLeft (cs s : string) : StartsOutside cs (TrimLeft s cs) = true.
Proof.
  induction s as [|d s IH]; simpl; [reflexivity|].
  destruct (InCutset cs d) eqn:Hd; [exact IH|].
  simpl; now rewrite Hd.
Qed.

Lemma StartsOutside_TrimRight (cs s : string) :
  StartsOutside cs s = true -> StartsOutside cs (TrimRight s cs) = true.
Proof.
  destruct s as [|c m]; [reflexivity|].
  simpl; intros Hc; apply negb_true_iff in Hc.
  unfold TrimRight; simpl rev_string; rewrite TrimLeft_app_split.
  destruct (AllIn cs (rev_string m)).
  - simpl; rewrite Hc; simpl; now rewrite Hc.
  - rewrite rev_string_app; simpl; now rewrite Hc.
Qed.

Lemma Trim_outside (cs s : string) :
  StartsOutside cs (Trim s cs) = true /\ EndsOutside cs (Trim s cs) = true.
Proof.
  unfold Trim; split.
  - apply StartsOutside_TrimRight, StartsOutside_TrimLeft.
  - unfold EndsOutside, TrimRight; rewrite rev_string_involutive.
    apply StartsOutside_TrimLeft.
Qed.

Lemma option_map_S_none (x : option nat) : option_map S x = None <-> x = None.
Proof. destruct x; simpl; split; congruence. Qed.

Lemma Index_app_none (a b : string) (c : ascii) :
  Index (a ++ b) c = None <-> Index a c = None /\ Index b c = None.
Proof.
  induction a as [|d a IH]; simpl; [tauto|].
  destruct (Ascii.eqb d c).
  - split; [discriminate | intros [H _]; discriminate].
  - rewrite !option_map_S_none; exact IH.
Qed.

Lemma Index_rev (s : string) (c : ascii) :
  Index (rev_string s) c = None <-> Index s c = None.
Proof.
  induction s as [|d s IH]; simpl; [tauto|].
  rewrite Index_app_none, IH; simpl.
  destruct (Ascii.eqb d c); simpl; [|rewrite option_map_S_none]; intuition discriminate.
Qed.

Lemma Index_TrimLeft (s cs : string) (c : ascii) :
  Index s c = None -> Index (TrimLeft s cs) c = None.
Proof.
  induction s as [|d s IH]; simpl; [reflexivity|].
  destruct (Ascii.eqb d c) eqn:E; [discriminate|].
  rewrite option_map_S_none; intros H.
  destruct (InCutset cs d); [exact (IH H)|].
  simpl; now rewrite E, H.
Qed.

Lemma Index_Trim (s cs : string) (c : ascii) :
  Index s c = None -> Index (Trim s cs) c = None.
Proof.
  intros H; unfold Trim, TrimRight.
  apply Index_rev, Index_TrimLeft, Index_rev, Index_TrimLeft, H.
Qed.

Lemma Index_quotes (s : string) :
  AllIn quote_cutset s = true -> Index s char_eq = None.
Proof.
  induction s as [|d s IH]; simpl; [reflexivity|].
  intros H; apply andb_true_iff in H as [Hd Hs].
  rewrite (IH Hs).
  destruct (Ascii.eqb d char_eq) eqn:E; [|reflexivity].
  apply Ascii.eqb_eq in E; subst d; discriminate Hd.
Qed.

End TrimFacts.

Module Extra.
Import Facts Branches Inversion TrimFacts.

(** A conditional waiter can be read back into the input that produced it:
    its name holds no ['='], it reports to the caller's writer, and the input
    was [condition=name=value], or [condition=name] with the value [true]. *)
Theorem conditional_waiter_inverse {W : Type} (Parse : string -> option error) (Quote : string -> string)
  (errOut : W) (s : string) (w : Waiter W) (n v : string) (e : W) :
  waiterFor Parse Quote s errOut = Ok w -> ConditionFn w = ConditionalWait n v e ->
  e = errOut /\ Index n char_eq = None /\
  (s = "condition=" ++ n ++ String char_eq v \/ (s = "condition=" ++ n /\ v = "true")).
Proof.
  intros H Hf; apply waiterFor_ok_cases in H
    as [[_ ->]|[(rest & -> & ->)|(p & v' & e' & c & j & _ & _ & _ & _ & _ & ->)]];
    try discriminate.
  destruct (Index rest char_eq) as [i|] eqn:Hi; simpl in Hf; injection Hf as <- <- <-.
  - apply Index_some_inv in Hi as [E Hn]; repeat split; [exact Hn|].
    left; now rewrite E at 1.
  - auto.
Qed.

Lemma conditional_waiter_inverse_witness :
  waiterFor parse_all QuoteASCII "condition=Ready=False" tt
    = Ok (NewConditionalWaiter "Ready" "False" tt) /\
  (tt = tt /\ Index "Ready" char_eq = None /\
   ("condition=Ready=False" = "condition=" ++ "Ready" ++ String char_eq "False" \/
    ("condition=Ready=False" = "condition=" ++ "Ready" /\ "False" = "true"))).
Proof.
  split; [reflexivity|].
  apply (conditional_waiter_inverse parse_all QuoteASCII tt "condition=Ready=False"
           (NewConditionalWaiter "Ready" "False" tt)); reflexivity.
Defined.

(** Writing the value [true] out is the same as leaving it to the default:
    [condition=name] and [condition=name=true] give the same waiter. *)
Theorem conditional_default_true {W : Type} (Parse : string -> option error) (Quote : string -> string)
  (errOut : W) (n : string) :
  Index n char_eq = None ->
  waiterFor Parse Quote ("condition=" ++ n) errOut
  = waiterFor Parse Quote ("condition=" ++ n ++ String char_eq "true") errOut.
Proof.
  intros H; rewrite !waiterFor_condition, H, Index_app_sep by exact H.
  now rewrite SliceTo_app, SliceFrom_app_S.
Qed.

Lemma conditional_default_true_witness :
  waiterFor parse_all QuoteASCII "condition=Available" tt
  = waiterFor parse_all QuoteASCII "condition=Available=true" tt.
Proof. apply conditional_default_true; reflexivity. Defined.

(** A jsonpath waiter comes from a [jsonpath=] input, reports to the
    caller's writer, holds a parser named [wait] built from a non-empty
    expression the jsonpath parser accepted, and an expected value with no
    ['='] that neither starts nor ends with a quote. *)
Theorem jsonpath_waiter_invariant {W : Type} (Parse : string -> option error) (Quote : string -> string)
  (errOut : W) (s : string) (w : Waiter W) (c : string) (j : JSONPath) (e : W) :
  waiterFor Parse Quote s errOut = Ok w -> ConditionFn w = JSONPathWait c j e ->
  e = errOut /\ HasPrefix s "jsonpath=" = true /\
  (exists expr, j = mkJSONPath "wait" (Some expr) /\ expr <> EmptyString /\
                Parse expr = None) /\
  Index c char_eq = None /\
  StartsOutside quote_cutset c = true /\ EndsOutside quote_cutset c = true.
Proof.
  intros H Hf; apply waiterFor_ok_cases in H
    as [[_ ->]|[(rest & -> & ->)|(p & v & x & c' & j' & -> & Hp & Hv & Hpi & Hn & ->)]].
  - discriminate.
  - destruct (Index rest char_eq); discriminate.
  - simpl in Hf; injection Hf as <- <- <-.
    apply processJSONPathInput_ok in Hpi as (_ & _ & ->).
    apply newJSONPathParser_ok in Hn as (Hne & Hpa & ->).
    destruct (Trim_outside quote_cutset v) as [Hs He].
    split; [reflexivity|]; split; [apply HasPrefix_app|].
    split; [exists x; auto|].
    split; [now apply Index_Trim|auto].
Qed.

Lemma jsonpath_waiter_invariant_witness :
  waiterFor parse_all QuoteASCII "jsonpath={.status.phase}='Running'" tt
    = Ok (NewJSONPathWaiter "Running" (mkJSONPath "wait" (Some "{.status.phase}")) tt) /\
  (tt = tt /\ HasPrefix "jsonpath={.status.phase}='Running'" "jsonpath=" = true /\
   (exists expr, mkJSONPath "wait" (Some "{.status.phase}") = mkJSONPath "wait" (Some expr) /\
                 expr <> EmptyString /\ parse_all expr = None) /\
   Index "Running" char_eq = None /\
   StartsOutside quote_cutset "Running" = true /\ EndsOutside quote_cutset "Running" = true).
Proof.
  split; [reflexivity|].
  apply (jsonpath_waiter_invariant parse_all QuoteASCII tt "jsonpath={.status.phase}='Running'"
           (NewJSONPathWaiter "Running" (mkJSONPath "wait" (Some "{.status.phase}")) tt));
    reflexivity.
Defined.

(** The successful jsonpath path: for [jsonpath=p=v] with no further ['='],
    a path the relaxation step turns into a non-empty expression the jsonpath
    parser accepts, and a non-empty value, waiterFor returns the jsonpath
    waiter of the relaxed expression and of the value with its quotes
    trimmed. *)
Theorem jsonpath_success {W : Type} (Parse : string -> option error) (Quote : string -> string) (errOut : W)
  (p v relaxed : string) :
  Index p char_eq = None -> Index v char_eq = None -> v <> EmptyString ->
  Relax.RelaxedJSONPathExpression p = Ok relaxed -> relaxed <> EmptyString ->
  Parse relaxed = None ->
  waiterFor Parse Quote ("jsonpath=" ++ p ++ String char_eq v) errOut
  = Ok (NewJSONPathWaiter (Trim v quote_cutset) (mkJSONPath "wait" (Some relaxed)) errOut).
Proof.
  intros Hp Hv Hne Hr Hre Hpa.
  rewrite waiterFor_jsonpath, Split_app_sep, Index_none_Split by assumption.
  cbv iota; unfold processJSONPathInput; rewrite Hr.
  destruct (String.eqb_spec v EmptyString); [contradiction|].
  unfold newJSONPathParser.
  destruct (String.eqb_spec relaxed EmptyString); [contradiction|].
  now rewrite Hpa.
Qed.

Lemma jsonpath_success_witness :
  waiterFor parse_all QuoteASCII "jsonpath=.status.readyReplicas=3" tt
  = Ok (NewJSONPathWaiter "3" (mkJSONPath "wait" (Some "{.status.readyReplicas}")) tt).
Proof.
  apply (jsonpath_success parse_all QuoteASCII tt ".status.readyReplicas" "3"
           "{.status.readyReplicas}");
    [reflexivity | reflexivity | discriminate | reflexivity | discriminate | reflexivity].
Defined.

(** Quotes around the expected value make no difference: any run of single
    or double quotes before and after a non-empty value gives the same
    result, waiter or error, as the bare value. *)
Theorem jsonpath_value_quotes_ignored {W : Type} (Parse : string -> option error) (Quote : string -> string)
  (errOut : W) (p pre v post : string) :
  Index p char_eq = None -> Index v char_eq = None -> v <> EmptyString ->
  AllIn quote_cutset pre = true -> AllIn quote_cutset post = true ->
  StartsOutside quote_cutset v = true -> EndsOutside quote_cutset v = true ->
  waiterFor Parse Quote ("jsonpath=" ++ p ++ String char_eq (pre ++ v ++ post)) errOut
  = waiterFor Parse Quote ("jsonpath=" ++ p ++ String char_eq v) errOut.
Proof.
  intros Hp Hv Hne Hpre Hpost Hs He.
  assert (Hq : Index (pre ++ v ++ post) char_eq = None)
    by (apply Index_app_none; split; [now apply Index_quotes|];
        apply Index_app_none; split; [exact Hv | now apply Index_quotes]).
  assert (Hne' : pre ++ v ++ post <> EmptyString)
    by (intros E; apply (f_equal String.length) in E;
        rewrite !str_length_app in E; destruct v; [contradiction | simpl in E; lia]).
  rewrite !waiterFor_jsonpath, !Split_app_sep, !Index_none_Split by assumption.
  cbv iota; unfold processJSONPathInput.
  destruct (Relax.RelaxedJSONPathExpression p); [|reflexivity].
  destruct (String.eqb_spec (pre ++ v ++ post) EmptyString); [contradiction|].
  destruct (String.eqb_spec v EmptyString); [contradiction|].
  rewrite Trim_frame by assumption.
  replace (Trim v quote_cutset) with v; [reflexivity|].
  symmetry; rewrite <- (str_app_nil_r v) at 1.
  exact (Trim_frame quote_cutset EmptyString v EmptyString eq_refl eq_refl Hs He).
Qed.

Lemma jsonpath_value_quotes_ignored_witness :
  waiterFor parse_all QuoteASCII "jsonpath={.status.phase}='Running'" tt
  = waiterFor parse_all QuoteASCII "jsonpath={.status.phase}=Running" tt.
Proof.
  apply (jsonpath_value_quotes_ignored parse_all QuoteASCII tt "{.status.phase}" "'" "Running" "'");
    first [reflexivity | discriminate].
Defined.

(** The errors of the two collaborators reach the caller unchanged: a path
    the relaxation step rejects gives its error, and a relaxed expression the
    jsonpath parser rejects gives the parser's error. *)
Theorem jsonpath_errors_passed_through {W : Type} (Parse : string -> option error) (Quote : string -> string)
  (errOut : W) (p v : string) :
  Index p char_eq = None -> Index v char_eq = None ->
  (forall err, Relax.RelaxedJSONPathExpression p = Err err ->
     waiterFor Parse Quote ("jsonpath=" ++ p ++ String char_eq v) errOut = Err err) /\
  (forall relaxed err, Relax.RelaxedJSONPathExpression p = Ok relaxed ->
     v <> EmptyString -> relaxed <> EmptyString -> Parse relaxed = Some err ->
     waiterFor Parse Quote ("jsonpath=" ++ p ++ String char_eq v) errOut = Err err).
Proof.
  intros Hp Hv.
  rewrite waiterFor_jsonpath, Split_app_sep, Index_none_Split by assumption.
  cbv iota; unfold processJSONPathInput; split.
  - intros err Hr; now rewrite Hr.
  - intros relaxed err Hr Hne Hre Hpa; rewrite Hr.
    destruct (String.eqb_spec v EmptyString); [contradiction|].
    unfold newJSONPathParser.
    destruct (String.eqb_spec relaxed EmptyString); [contradiction|].
    now rewrite Hpa.
Qed.

Lemma jsonpath_errors_passed_through_witness :
  waiterFor parse_all QuoteASCII "jsonpath={a=x" tt = Err Relax.relax_error /\
  waiterFor (fun _ => Some "unclosed array expect ]") QuoteASCII "jsonpath={.items[0}=x" tt
    = Err "unclosed array expect ]".
Proof.
  split.
  - apply (proj1 (jsonpath_errors_passed_through parse_all QuoteASCII tt "{a" "x"
                    eq_refl eq_refl)); reflexivity.
  - apply (proj2 (jsonpath_errors_passed_through (fun _ => Some "unclosed array expect ]")
                    QuoteASCII tt "{.items[0}" "x" eq_refl eq_refl) "{.items[0}");
      first [reflexivity | discriminate].
Defined.

(** Only [delete] is matched without regard to case: a [condition=] or
    [jsonpath=] prefix written with any other capitalisation is not
    recognised, and the input is reported as an unrecognized condition. *)
Theorem prefixes_case_sensitive {W : Type} (Parse : string -> option error) (Quote : string -> string)
  (errOut : W) (p rest : string) :
  (ToLower p = "condition=" \/ ToLower p = "jsonpath=") ->
  p <> "condition=" -> p <> "jsonpath=" ->
  waiterFor Parse Quote (p ++ rest) errOut = Err (msg_unrecognized_prefix ++ Quote (p ++ rest)).
Proof.
  intros Hl Hc Hj.
  assert (Hlen : String.length p = 10 \/ String.length p = 9)
    by (rewrite <- ToLower_length; destruct Hl as [-> | ->]; auto).
  apply waiterFor_other.
  - intros E; apply (f_equal String.length) in E.
    rewrite ToLower_length, str_length_app in E; simpl in E; lia.
  - destruct (HasPrefix (p ++ rest) "condition=") eqn:H; [exfalso|reflexivity].
    destruct Hl as [Hl|Hl].
    + apply Hc, (HasPrefix_same_length p _ rest); [|exact H].
      rewrite <- ToLower_length, Hl; reflexivity.
    + destruct p as [|d p']; [simpl in Hlen; lia|].
      cbn [HasPrefix String.append] in H; apply andb_true_iff in H as [Hd _].
      apply Ascii.eqb_eq in Hd; subst d; discriminate Hl.
  - destruct (HasPrefix (p ++ rest) "jsonpath=") eqn:H; [exfalso|reflexivity].
    destruct Hl as [Hl|Hl].
    + destruct p as [|d p']; [simpl in Hlen; lia|].
      cbn [HasPrefix String.append] in H; apply andb_true_iff in H as [Hd _].
      apply Ascii.eqb_eq in Hd; subst d; discriminate Hl.
    + apply Hj, (HasPrefix_same_length p _ rest); [|exact H].
      rewrite <- ToLower_length, Hl; reflexivity.
Qed.

Lemma prefixes_case_sensitive_witness :
  waiterFor parse_all QuoteASCII "Condition=Ready" tt
  = Err (msg_unrecognized_prefix ++ QuoteASCII "Condition=Ready").
Proof.
  apply (prefixes_case_sensitive parse_all QuoteASCII tt "Condition=" "Ready");
    [left; reflexivity | discriminate | discriminate].
Defined.

End Extra.
